(** * Ownership transfer through [std::unique_ptr]: Producer, Borrower, Consumer

    Shallow embedding of [assets/code/unique-ptr-ownership.cpp].

    The program is sequential C++.  Its state is the free store holding the
    [Data] objects, the [m_moocher] flag of the one [Borrower], the [m_data]
    slot of the one [Producer], and what has been written to [std::cout].
    Every member function becomes a computation in a state-and-fault monad
    over that state; undefined behaviour (dereferencing an empty
    [unique_ptr], deleting an object that is not alive) is the fault. *)

From stdpp Require Import gmap strings list fin_maps.

Open Scope string_scope.
Open Scope list_scope.

(** ** Data model *)

(** Identity of a [Data] object (the [this] that the constructor and the
    destructor print).  The numeric address is chosen by the allocator and
    may be reused after a [delete]; an instance is identified here by its
    allocation number, which is never reused. *)
Abbreviation ptr := nat (only parsing).

(** [struct Data]: one private member, [m_datum]. *)
Record Data := mkData { m_datum : string }.

(** [std::unique_ptr<Data>]: [None] is [nullptr]. *)
Abbreviation unique_ptr := (option ptr) (only parsing).

(** [struct Borrower]: [bool m_moocher { false }]. *)
Record Borrower := mkBorrower { m_moocher : bool }.

(** [struct Producer]: the slot [m_data]; the two reference members
    [m_borrower] and [m_consumer] alias the one borrower and the one
    (stateless) consumer of [main], which live in [World]. *)
Record Producer := mkProducer { m_data : unique_ptr }.

(** One line written to [std::cout].  The events keep the arguments of the
    call that wrote the line: the constructor event keeps the datum it was
    given, and the two report events keep the object whose payload was
    read. *)
Inductive event :=
| EvBanner (title : string)            (* "=== First run ===" / "=== Second run ===" *)
| EvCtor (this : ptr) (datum : string) (* "[this] Data::Data()" *)
| EvDtor (this : ptr)                  (* "[this] Data::~Data()" *)
| EvConsumerGot (obj : ptr) (datum : string)  (* "[CONSUMER] got the data: ..." *)
| EvBorrowerGot (obj : ptr) (datum : string)  (* "[BORROWER] got the data: ..." *)
| EvProducing                          (* "[PRODUCER] producing some data..." *)
| EvLending                            (* "[PRODUCER] lending the data..." *)
| EvMineAgain (occupied : bool)        (* "... data should be mine again, checking... b" *)
| EvDishonest                          (* "... what a dishonest borrower! ..." *)
| EvNullNow (empty : bool).            (* "... m_data should be nullptr now, checking... b" *)

Record World := mkWorld {
  heap : gmap nat Data;   (* the live [Data] objects *)
  next : ptr;             (* allocation counter *)
  borrower : Borrower;
  producer : Producer;
  out : list event        (* [std::cout], oldest line first *)
}.

Definition set_heap (h : gmap nat Data) (w : World) : World :=
  mkWorld h (next w) (borrower w) (producer w) (out w).
Definition set_next (n : ptr) (w : World) : World :=
  mkWorld (heap w) n (borrower w) (producer w) (out w).
Definition set_borrower (b : Borrower) (w : World) : World :=
  mkWorld (heap w) (next w) b (producer w) (out w).
Definition set_producer (p : Producer) (w : World) : World :=
  mkWorld (heap w) (next w) (borrower w) p (out w).
Definition set_out (o : list event) (w : World) : World :=
  mkWorld (heap w) (next w) (borrower w) (producer w) o.

(** ** The monad: state passing with a fault *)

Definition M (A : Type) : Type := World -> option (A * World).

Definition ret {A} (a : A) : M A := fun w => Some (a, w).
Definition bind {A B} (m : M A) (k : A -> M B) : M B :=
  fun w => match m w with
           | Some (a, w') => k a w'
           | None => None
           end.
(** Undefined behaviour. *)
Definition fault {A} : M A := fun _ => None.

Notation "x <- m ;; k" := (bind m (fun x => k))
  (at level 20, m at level 99, k at level 200, only parsing).
Notation "m ;; k" := (bind m (fun _ => k))
  (at level 100, k at level 200, only parsing, right associativity).

Definition gets {A} (f : World -> A) : M A := fun w => Some (f w, w).
Definition modify (f : World -> World) : M unit := fun w => Some (tt, f w).

(** [std::cout << ... << std::endl]. *)
Definition emit (e : event) : M unit :=
  modify (fun w => set_out (out w ++ [e]) w).

(** ** [struct Data] *)

(** [new Data(datum)]: storage is obtained, then the constructor stores the
    datum and prints. *)
Definition new_Data (datum : string) : M ptr :=
  this <- gets next ;;
  modify (fun w => set_next (S this) (set_heap (<[this := mkData datum]> (heap w)) w)) ;;
  emit (EvCtor this datum) ;;
  ret this.

(** [delete p] for a non-null [p]: the destructor prints, then the storage
    is released.  Deleting an object that is not alive is undefined. *)
Definition delete_Data (p : ptr) : M unit :=
  h <- gets heap ;;
  match h !! p with
  | None => fault
  | Some _ =>
      emit (EvDtor p) ;;
      modify (fun w => set_heap (delete p (heap w)) w)
  end.

(** [Data::datum()] called on the object [this]: reading a member of an
    object that is not alive is undefined. *)
Definition datum (this : ptr) : M string :=
  h <- gets heap ;;
  match h !! this with
  | None => fault
  | Some d => ret (m_datum d)
  end.

(** ** [std::unique_ptr<Data>] *)

(** [operator bool]: does the pointer own an object. *)
Definition owns (u : unique_ptr) : bool :=
  match u with
  | None => false
  | Some _ => true
  end.

(** [operator->]: the stored pointer; undefined on [nullptr]. *)
Definition arrow (u : unique_ptr) : M ptr :=
  match u with
  | None => fault
  | Some p => ret p
  end.

(** [~unique_ptr()]: deletes the owned object, if any. *)
Definition unique_ptr_dtor (u : unique_ptr) : M unit :=
  match u with
  | None => ret tt
  | Some p => delete_Data p
  end.

(** An lvalue of type [std::unique_ptr<Data>] living in the world, as a
    reference parameter sees it: how to read it and how to write it. *)
Record uptr_ref := mkRef {
  load : World -> unique_ptr;
  store : unique_ptr -> World -> World
}.

(** Move construction [auto x = std::move(r)]: [x] takes the pointer and
    [r] is left null. *)
Definition move_from (r : uptr_ref) : M unique_ptr :=
  p <- gets (load r) ;;
  modify (store r None) ;;
  ret p.

(** Move assignment [r = std::move(tmp)], that is [r.reset(tmp.release())]:
    the new pointer is stored first, then the old object is deleted. *)
Definition move_assign (r : uptr_ref) (tmp : unique_ptr) : M unit :=
  old <- gets (load r) ;;
  modify (store r tmp) ;;
  unique_ptr_dtor old.

(** ** [struct Consumer] *)

(** [void consume(std::unique_ptr<Data> data)]: the parameter owns the
    object and is destroyed when the call is over. *)
Definition consume (data : unique_ptr) : M unit :=
  this <- arrow data ;;
  s <- datum this ;;
  emit (EvConsumerGot this s) ;;
  unique_ptr_dtor data.

(** ** [struct Borrower] *)

(** [void borrow(std::unique_ptr<Data>&& data)]: [data] is a reference to
    the caller's slot.  When [m_moocher] is set, the local
    [data_is_mine_now] takes the pointer out of that slot; it is a local of
    the [if] block and is destroyed at the closing brace of the block. *)
Definition borrow (data : uptr_ref) : M unit :=
  d <- gets (load data) ;;
  this <- arrow d ;;
  s <- datum this ;;
  emit (EvBorrowerGot this s) ;;
  moocher <- gets (fun w => m_moocher (borrower w)) ;;
  if moocher then
    data_is_mine_now <- move_from data ;;
    unique_ptr_dtor data_is_mine_now
  else ret tt.

(** A default-constructed [Borrower]: the default member initializer
    [bool m_moocher { false }]. *)
Definition Borrower_new : Borrower := mkBorrower false.

(** [void setBadWill() { m_moocher = true; }] *)
Definition setBadWill : M unit :=
  modify (set_borrower (mkBorrower true)).

(** ** [struct Producer] *)

(** [Producer(Borrower&, Consumer&)]: the two references are bound and
    [m_data] is default-constructed, that is, empty. *)
Definition Producer_new : Producer := mkProducer None.

(** The member [m_data] of the producer, as an lvalue. *)
Definition m_data_ref : uptr_ref :=
  mkRef (fun w => m_data (producer w))
        (fun u w => set_producer (mkProducer u) w).

(** [void produce()] *)
Definition produce : M unit :=
  emit EvProducing ;;
  fresh <- new_Data "Hello, World!" ;;
  move_assign m_data_ref (Some fresh) ;;
  emit EvLending ;;
  borrow m_data_ref ;;
  d <- gets (load m_data_ref) ;;
  emit (EvMineAgain (owns d)) ;;                 (* m_data != nullptr *)
  d <- gets (load m_data_ref) ;;
  (if negb (owns d) then                         (* !m_data *)
     emit EvDishonest
   else
     arg <- move_from m_data_ref ;;
     consume arg) ;;
  d <- gets (load m_data_ref) ;;
  emit (EvNullNow (negb (owns d))).              (* m_data == nullptr *)

(** ** [main] *)

(** The world before [main] runs: nothing allocated, nothing printed.  The
    locals of [main] are given their values by [main] itself. *)
Definition boot : World :=
  mkWorld ∅ 0 Borrower_new Producer_new [].

(** End of [main]: the locals are destroyed in reverse order of
    construction.  [~Producer] destroys [m_data]; [Consumer] and [Borrower]
    have nothing to destroy. *)
Definition teardown : M unit :=
  d <- gets (load m_data_ref) ;;
  unique_ptr_dtor d.

(** [int main()] *)
Definition main : M Z :=
  modify (set_borrower Borrower_new) ;;         (* Borrower borrower; *)
  emit (EvBanner "=== First run ===") ;;
  modify (set_producer Producer_new) ;;         (* Producer producer(borrower, consumer); *)
  produce ;;
  emit (EvBanner "=== Second run ===") ;;
  setBadWill ;;
  produce ;;
  teardown ;;
  ret 0%Z.

(** ** Clients of the three classes

    [main] is one client of [Producer] and [Borrower].  Any client that,
    like [main], sets the three objects up, then calls the public member
    functions in some order (printing banners between them) and returns,
    is a list of calls. *)
Inductive call :=
| CallBanner (title : string)
| CallProduce
| CallSetBadWill.

Definition do_call (c : call) : M unit :=
  match c with
  | CallBanner t => emit (EvBanner t)
  | CallProduce => produce
  | CallSetBadWill => setBadWill
  end.

Fixpoint do_calls (cs : list call) : M unit :=
  match cs with
  | [] => ret tt
  | c :: cs' => do_call c ;; do_calls cs'
  end.

Definition client (cs : list call) : M Z :=
  modify (set_borrower Borrower_new) ;;
  modify (set_producer Producer_new) ;;
  do_calls cs ;;
  teardown ;;
  ret 0%Z.

(** The calls of [main], in order. *)
Definition main_calls : list call :=
  [CallBanner "=== First run ==="; CallProduce;
   CallBanner "=== Second run ==="; CallSetBadWill; CallProduce].

(** ** Well-formed worlds *)

(** Every live object was allocated before now, and the producer's slot,
    when occupied, owns a live object. *)
Definition wf (w : World) : Prop :=
  map_Forall (fun p _ => p < next w) (heap w) /\
  from_option (fun p => is_Some (heap w !! p)) True (m_data (producer w)).

#[global] Instance wf_dec w : Decision (wf w).
Proof. unfold wf. destruct (m_data (producer w)); simpl; apply _. Defined.

(** ** What a production run does, in closed form *)

(** What [~unique_ptr] prints, and what it leaves of the free store. *)
Definition dtor_events (u : unique_ptr) : list event :=
  match u with
  | None => []
  | Some p => [EvDtor p]
  end.

Definition heap_without (u : unique_ptr) (h : gmap nat Data) : gmap nat Data :=
  match u with
  | None => h
  | Some p => delete p h
  end.

(** The lines of one call of [produce] that allocates object [n], in a
    world whose slot held [old] and whose borrower has disposition
    [moocher]. *)
Definition run_events (old : unique_ptr) (moocher : bool) (n : ptr) : list event :=
  [EvProducing; EvCtor n "Hello, World!"] ++ dtor_events old ++
  [EvLending; EvBorrowerGot n "Hello, World!"] ++
  (if moocher
   then [EvDtor n; EvMineAgain false; EvDishonest; EvNullNow true]
   else [EvMineAgain true; EvConsumerGot n "Hello, World!"; EvDtor n;
         EvNullNow true]).

Definition produced (w : World) : World :=
  mkWorld (heap_without (m_data (producer w)) (heap w))
          (S (next w))
          (borrower w)
          (mkProducer None)
          (out w ++ run_events (m_data (producer w)) (m_moocher (borrower w)) (next w)).

(** What one call of a client prints when the slot is empty beforehand. *)
Definition call_events (c : call) (moocher : bool) (n : ptr) : list event :=
  match c with
  | CallBanner t => [EvBanner t]
  | CallProduce => run_events None moocher n
  | CallSetBadWill => []
  end.

#[global] Instance event_eq_dec : EqDecision event.
Proof. solve_decision. Defined.

(** How many production runs a trace shows: each call of [produce] prints
    its first line once. *)
Definition runs_in (t : list event) : nat :=
  length (filter (fun e => e = EvProducing) t).

(** The world in which [main] makes its second call of [produce]: the
    first run is over and [setBadWill] has been called. *)
Definition second_run_start : World :=
  mkWorld ∅ 1 (mkBorrower true) Producer_new
          ([EvBanner "=== First run ==="] ++ run_events None false 0 ++
           [EvBanner "=== Second run ==="]).

(** The world in which [produce] lends: the object 0 has just been made and
    put in the slot. *)
Definition lending_world : World :=
  mkWorld {[ 0 := mkData "Hello, World!" ]} 1 Borrower_new (mkProducer (Some 0))
          [EvProducing; EvCtor 0 "Hello, World!"; EvLending].

(** ** Object lifecycles in a trace *)

(** The object an output line is about, if any. *)
Definition ev_obj (e : event) : option ptr :=
  match e with
  | EvCtor p _ | EvDtor p | EvConsumerGot p _ | EvBorrowerGot p _ => Some p
  | _ => None
  end.

(** The payload an output line shows or was given, if any. *)
Definition ev_payload (e : event) : option string :=
  match e with
  | EvCtor _ s | EvConsumerGot _ s | EvBorrowerGot _ s => Some s
  | _ => None
  end.

(** The line reports a read of the payload of object [i]. *)
Definition is_read (i : ptr) (e : event) : bool :=
  match e with
  | EvConsumerGot p _ | EvBorrowerGot p _ => bool_decide (p = i)
  | _ => false
  end.

(** In trace [t], object [i] is constructed at exactly one position [c],
    destroyed at exactly one position [d], [c] comes first, and every read
    of its payload lies strictly between the two. *)
Definition lifecycle (t : list event) (i : ptr) : Prop :=
  exists c d s,
    t !! c = Some (EvCtor i s) /\ t !! d = Some (EvDtor i) /\ c < d /\
    (forall k s', t !! k = Some (EvCtor i s') -> k = c) /\
    (forall k, t !! k = Some (EvDtor i) -> k = d) /\
    (forall k e, t !! k = Some e -> is_read i e = true -> c < k < d).

(** Every object the trace speaks of is one of the first [n] allocated, and
    each of those has had its whole life. *)
Definition closed (t : list event) (n : ptr) : Prop :=
  (forall i, i < n -> lifecycle t i) /\
  (forall e i, e ∈ t -> ev_obj e = Some i -> i < n).

(** The state between two calls of a client: nothing is alive, the slot is
    empty, and the trace is closed. *)
Definition idle (w : World) : Prop :=
  heap w = ∅ /\ m_data (producer w) = None /\ closed (out w) (next w).

(** ** Frame and payload predicates *)

(** A computation that leaves the borrower as it found it. *)
Definition keeps_borrower {A} (m : M A) : Prop :=
  forall w a w', m w = Some (a, w') -> borrower w' = borrower w.

(** Every payload that the trace shows is the literal of [produce]. *)
Definition hello_only (t : list event) : Prop :=
  forall e s, e ∈ t -> ev_payload e = Some s -> s = "Hello, World!".

(** ** The two calls that [produce] makes on its slot *)

(** [m_borrower.borrow(std::move(m_data))]: the slot itself is passed, by
    reference. *)
Definition lend : M unit := borrow m_data_ref.

(** [m_consumer.consume(std::move(m_data))]: the parameter is
    move-constructed from the slot, which is left empty, and the call is
    made. *)
Definition hand_over : M unit :=
  arg <- move_from m_data_ref ;;
  consume arg.

(** The world in which the second run of [main] lends: object 1 has just
    been made and put in the slot, and the borrower claims. *)
Definition claiming_world : World :=
  mkWorld {[ 1 := mkData "Hello, World!" ]} 2 (mkBorrower true)
          (mkProducer (Some 1))
          (out second_run_start ++
           [EvProducing; EvCtor 1 "Hello, World!"; EvLending]).

(** ** Traces of clients, computed call by call *)

#[global] Instance call_eq_dec : EqDecision call.
Proof. solve_decision. Defined.

(** How many of the calls are calls of [produce]. *)
Definition count_produce (cs : list call) : nat :=
  length (filter (fun c => c = CallProduce) cs).

(** What the calls [cs] print when they start with an empty slot, a
    borrower of disposition [moocher] and the allocation counter at [n]. *)
Fixpoint trace_from (cs : list call) (moocher : bool) (n : ptr) : list event :=
  match cs with
  | [] => []
  | CallBanner t :: cs' => EvBanner t :: trace_from cs' moocher n
  | CallProduce :: cs' => run_events None moocher n ++ trace_from cs' moocher (S n)
  | CallSetBadWill :: cs' => trace_from cs' true n
  end.

(** Lifetimes do not overlap: an object made later is constructed after
    every earlier object has been destroyed. *)
Definition one_at_a_time (t : list event) : Prop :=
  forall a b i j s,
    t !! a = Some (EvDtor i) -> t !! b = Some (EvCtor j s) -> i < j -> a < b.

(** ** Relations between the world before and the world after *)

(** Whenever [m] returns, the worlds before and after are related by [R]. *)
Definition steps_in {A} (R : World -> World -> Prop) (m : M A) : Prop :=
  forall w a w', m w = Some (a, w') -> R w w'.


(** The producer is as it was. *)
Definition same_producer (w w' : World) : Prop := producer w' = producer w.

(** * Proofs *)

Section Steps.

Lemma bind_Some {A B} (m : M A) (k : A -> M B) w a w' :
  m w = Some (a, w') -> bind m k w = k a w'.
Proof. unfold bind. intros ->. reflexivity. Qed.

Lemma bind_None {A B} (m : M A) (k : A -> M B) w :
  m w = None -> bind m k w = None.
Proof. unfold bind. intros ->. reflexivity. Qed.

Lemma bind_inv {A B} (m : M A) (k : A -> M B) w b w'' :
  bind m k w = Some (b, w'') ->
  exists a w', m w = Some (a, w') /\ k a w' = Some (b, w'').
Proof.
  unfold bind. destruct (m w) as [[a w']|] eqn:E; [|discriminate].
  intros H. exists a, w'. split; [reflexivity | exact H].
Qed.

Lemma delete_Data_live p d w :
  heap w !! p = Some d ->
  delete_Data p w =
    Some (tt, set_heap (delete p (heap w)) (set_out (out w ++ [EvDtor p]) w)).
Proof. intros H. unfold delete_Data, bind, gets. rewrite H. reflexivity. Qed.

Lemma delete_Data_dead p w :
  heap w !! p = None -> delete_Data p w = None.
Proof. intros H. unfold delete_Data, bind, gets. rewrite H. reflexivity. Qed.

Lemma datum_live p d w :
  heap w !! p = Some d -> datum p w = Some (m_datum d, w).
Proof. intros H. unfold datum, bind, gets. rewrite H. reflexivity. Qed.


Lemma unique_ptr_dtor_live u w :
  from_option (fun p => is_Some (heap w !! p)) True u ->
  unique_ptr_dtor u w =
    Some (tt, mkWorld (heap_without u (heap w)) (next w) (borrower w)
                      (producer w) (out w ++ dtor_events u)).
Proof.
  destruct u as [p|]; simpl.
  - intros [d Hd]. rewrite (delete_Data_live p d w Hd). reflexivity.
  - intros _. destruct w. unfold ret. simpl. rewrite app_nil_r. reflexivity.
Qed.

(** The lending call when the borrower claims: the object is read, taken
    out of the caller's slot, and deleted at the end of the block. *)
Lemma borrow_claim p d w :
  m_moocher (borrower w) = true ->
  m_data (producer w) = Some p ->
  heap w !! p = Some d ->
  borrow m_data_ref w =
    Some (tt, mkWorld (delete p (heap w)) (next w) (borrower w)
                      (mkProducer None)
                      (out w ++ [EvBorrowerGot p (m_datum d); EvDtor p])).
Proof.
  intros Hm Hs Hd. destruct w as [h n [b] [u] o]. simpl in *. subst b u.
  unfold borrow, move_from, bind, gets, arrow, ret, emit, modify. simpl.
  erewrite datum_live by (simpl; exact Hd). simpl.
  erewrite delete_Data_live by (simpl; exact Hd). simpl.
  rewrite <- app_assoc. reflexivity.
Qed.

(** The lending call when the borrower does not claim: one line is
    printed and nothing else changes. *)
Lemma borrow_untouched (r : uptr_ref) p d w :
  m_moocher (borrower w) = false ->
  load r w = Some p ->
  heap w !! p = Some d ->
  borrow r w = Some (tt, set_out (out w ++ [EvBorrowerGot p (m_datum d)]) w).
Proof.
  intros Hm Hs Hd.
  unfold borrow, bind, gets. rewrite Hs. simpl.
  erewrite datum_live by (simpl; exact Hd). simpl. rewrite Hm. reflexivity.
Qed.

Lemma consume_live p d w :
  heap w !! p = Some d ->
  consume (Some p) w =
    Some (tt, mkWorld (delete p (heap w)) (next w) (borrower w) (producer w)
                      (out w ++ [EvConsumerGot p (m_datum d); EvDtor p])).
Proof.
  intros Hd. unfold consume, bind, arrow, ret. 
  erewrite datum_live by (simpl; exact Hd). simpl.
  erewrite delete_Data_live by (simpl; exact Hd). simpl.
  rewrite <- app_assoc. reflexivity.
Qed.

(** Dereferencing an empty pointer faults. *)
Lemma consume_null w : consume None w = None.
Proof. reflexivity. Qed.

Lemma borrow_null (r : uptr_ref) w : load r w = None -> borrow r w = None.
Proof. intros H. unfold borrow, bind, gets. rewrite H. reflexivity. Qed.

End Steps.

Lemma wf_fresh w : wf w -> heap w !! next w = None.
Proof.
  intros [Hlt _]. destruct (heap w !! next w) eqn:E; [|reflexivity].
  apply (map_Forall_lookup_1 _ _ _ _ Hlt) in E. lia.
Qed.

Lemma wf_slot_old w q :
  wf w -> m_data (producer w) = Some q ->
  q <> next w /\ is_Some (heap w !! q).
Proof.
  intros [Hlt Hold] Hq. rewrite Hq in Hold. simpl in Hold. split; [|exact Hold].
  destruct Hold as [d Hd]. apply (map_Forall_lookup_1 _ _ _ _ Hlt) in Hd. lia.
Qed.

(** Run the first computation of a [bind], proving what it returns with
    [tac]. *)
Tactic Notation "step" tactic3(tac) :=
  etransitivity; [ apply bind_Some; tac | cbv beta; simpl ].

Lemma produce_wf w : wf w -> produce w = Some (tt, produced w).
Proof.
  intros Hwf. pose proof (wf_fresh w Hwf) as Hn.
  assert (Hold : forall q, m_data (producer w) = Some q ->
                           q <> next w /\ is_Some (heap w !! q))
    by (intros q; apply wf_slot_old, Hwf).
  clear Hwf. unfold produce, produced.
  destruct w as [h n [b] [old] o].
  cbn [heap next producer borrower m_data m_moocher out] in *.
  pose (D := mkData "Hello, World!").
  step reflexivity.
  step reflexivity.
  step (unfold move_assign; step reflexivity; step reflexivity;
        apply unique_ptr_dtor_live).
  { simpl. destruct old as [q|]; simpl; [|exact I].
    destruct (Hold q eq_refl) as [Hne Hq].
    rewrite lookup_insert_ne by congruence. exact Hq. }
  step reflexivity.
  assert (Hlive : heap_without old (<[n:=D]> h) !! n = Some D).
  { destruct old as [q|]; simpl.
    - destruct (Hold q eq_refl) as [Hne _].
      rewrite lookup_delete_ne by congruence. apply lookup_insert_eq.
    - apply lookup_insert_eq. }
  assert (Hgone : delete n (heap_without old (<[n:=D]> h)) = heap_without old h).
  { destruct old as [q|]; simpl.
    - rewrite delete_delete, delete_insert_id; [reflexivity | exact Hn].
    - apply delete_insert_id, Hn. }
  destruct b.
  - step (eapply borrow_claim; [reflexivity | reflexivity | exact Hlive]).
    step reflexivity. step reflexivity. step reflexivity. step reflexivity.
    step reflexivity.
    unfold emit, modify, set_out. simpl. fold D. rewrite Hgone.
    unfold run_events. rewrite <- !app_assoc. reflexivity.
  - step (eapply borrow_untouched; [reflexivity | reflexivity | exact Hlive]).
    step reflexivity. step reflexivity. step reflexivity.
    step (step reflexivity; eapply consume_live; exact Hlive).
    step reflexivity.
    unfold emit, modify, set_out. simpl. fold D. rewrite Hgone.
    unfold run_events. rewrite <- !app_assoc. reflexivity.
Qed.

Lemma wf_produced w : wf w -> wf (produced w).
Proof.
  intros [Hlt _]. split; simpl; [|exact I].
  assert (H : map_Forall (fun p (_ : Data) => p < S (next w)) (heap w)).
  { intros p d Hp. specialize (Hlt p d Hp). simpl in Hlt. lia. }
  destruct (m_data (producer w)); simpl; [apply map_Forall_delete|]; exact H.
Qed.

Lemma idle_wf w : idle w -> wf w.
Proof.
  intros (Hh & Hs & _). split.
  - rewrite Hh. apply map_Forall_empty.
  - rewrite Hs. exact I.
Qed.

Section Lifecycle.

Lemma is_read_obj i e : is_read i e = true -> ev_obj e = Some i.
Proof.
  destruct e; simpl; try discriminate;
    intros H; apply bool_decide_eq_true in H; subst; reflexivity.
Qed.

Lemma lifecycle_app t l i :
  lifecycle t i ->
  (forall e, e ∈ l -> ev_obj e <> Some i) ->
  lifecycle (t ++ l) i.
Proof.
  intros (c & d & s & Hc & Hd & Hcd & Uc & Ud & Hr) Hl.
  assert (Hout : forall k e, (t ++ l) !! k = Some e -> ev_obj e = Some i ->
                             t !! k = Some e).
  { intros k e Hk He. apply lookup_app_Some in Hk as [Hk | [_ Hk]]; [exact Hk|].
    exfalso. apply (Hl e); [|exact He]. apply list_elem_of_lookup. eauto. }
  exists c, d, s. split; [|split; [|split; [|split; [|split]]]].
  - apply lookup_app_l_Some, Hc.
  - apply lookup_app_l_Some, Hd.
  - exact Hcd.
  - intros k s' Hk. apply (Uc k s'), Hout; [exact Hk | reflexivity].
  - intros k Hk. apply Ud, Hout; [exact Hk | reflexivity].
  - intros k e Hk He. apply (Hr k e); [|exact He].
    apply Hout; [exact Hk | apply is_read_obj, He].
Qed.

(** Where the lines about an object not yet spoken of can be. *)
Lemma lookup_after t blk k e i :
  (forall e', e' ∈ t -> ev_obj e' <> Some i) ->
  (t ++ blk) !! k = Some e -> ev_obj e = Some i ->
  exists j, k = length t + j /\ blk !! j = Some e.
Proof.
  intros Ht Hk He. apply lookup_app_Some in Hk as [Hk | [Hle Hk]].
  - exfalso. apply (Ht e); [|exact He]. apply list_elem_of_lookup. eauto.
  - exists (k - length t). split; [lia | exact Hk].
Qed.

Lemma lookup_at t (blk : list event) j :
  (t ++ blk) !! (length t + j) = blk !! j.
Proof.
  rewrite lookup_app_r by lia. f_equal. lia.
Qed.

(** The life of the object made by a production run that starts with an
    empty slot. *)
Lemma lifecycle_run t b n :
  (forall e, e ∈ t -> ev_obj e <> Some n) ->
  lifecycle (t ++ run_events None b n) n.
Proof.
  intros Ht.
  exists (length t + 1), (length t + (if b then 4 else 6)), "Hello, World!".
  rewrite !lookup_at.
  destruct b; (split; [reflexivity|]); (split; [reflexivity|]);
    (split; [lia|]); (split; [|split]).
  all: intros k.
  all: try (intros s' Hk).
  all: try (intros Hk).
  all: try (intros He; pose proof (is_read_obj _ _ He) as Ho).
  all: destruct (lookup_after t _ k _ n Ht Hk
                   ltac:(first [exact Ho | reflexivity])) as (j & -> & Hj).
  all: simpl in Hj;
       do 8 (destruct j as [|j];
             [first [discriminate Hj
                    | try (injection Hj as <-); simpl in *; first [congruence | lia]]|]);
       simpl in Hj; discriminate.
Qed.

Lemma run_events_obj b n e i :
  e ∈ run_events None b n -> ev_obj e = Some i -> i = n.
Proof.
  intros He Hi. unfold run_events in He. simpl in He.
  destruct b; repeat (apply elem_of_cons in He as [-> | He];
                      [simpl in Hi; congruence|]);
    apply elem_of_nil in He; contradiction.
Qed.

Lemma closed_nil : closed [] 0.
Proof.
  split.
  - intros i Hi. lia.
  - intros e i He. apply elem_of_nil in He. contradiction.
Qed.

Lemma closed_banner t n title : closed t n -> closed (t ++ [EvBanner title]) n.
Proof.
  intros [Hl Hb]. split.
  - intros i Hi. apply lifecycle_app; [apply Hl, Hi|].
    intros e He. apply list_elem_of_singleton in He as ->. discriminate.
  - intros e i He Hi. apply elem_of_app in He as [He | He]; [apply (Hb e i He Hi)|].
    apply list_elem_of_singleton in He as ->. discriminate.
Qed.

Lemma closed_run t n b : closed t n -> closed (t ++ run_events None b n) (S n).
Proof.
  intros [Hl Hb]. split.
  - intros i Hi. destruct (decide (i = n)) as [-> | Hne].
    + apply lifecycle_run. intros e He Hn. specialize (Hb e n He Hn). lia.
    + apply lifecycle_app; [apply Hl; lia|].
      intros e He Hi'. apply Hne. exact (run_events_obj b n e i He Hi').
  - intros e i He Hi. apply elem_of_app in He as [He | He].
    + specialize (Hb e i He Hi). lia.
    + rewrite (run_events_obj b n e i He Hi). lia.
Qed.

End Lifecycle.

(** ** Clients *)

Section Clients.

Lemma idle_boot : idle boot.
Proof. split; [reflexivity|]. split; [reflexivity|]. apply closed_nil. Qed.

Lemma do_call_idle c w :
  idle w ->
  exists w',
    do_call c w = Some (tt, w') /\ idle w' /\
    out w' = out w ++ call_events c (m_moocher (borrower w)) (next w) /\
    (m_moocher (borrower w) = true -> m_moocher (borrower w') = true).
Proof.
  intros Hi. pose proof (idle_wf w Hi) as Hwf.
  destruct Hi as (Hh & Hs & Hc). destruct c as [t | |]; simpl.
  - eexists. split; [reflexivity|]. simpl. split; [|split; [reflexivity|tauto]].
    split; [exact Hh|]. split; [exact Hs|]. apply closed_banner, Hc.
  - exists (produced w). split; [apply produce_wf, Hwf|].
    unfold produced. rewrite Hs, Hh. simpl. split; [|split; [reflexivity|tauto]].
    split; [reflexivity|]. split; [reflexivity|]. apply closed_run, Hc.
  - eexists. split; [reflexivity|]. simpl. rewrite app_nil_r.
    split; [|split; reflexivity]. split; [exact Hh|]. split; [exact Hs|exact Hc].
Qed.

Lemma do_calls_idle cs : forall w,
  idle w ->
  exists w', do_calls cs w = Some (tt, w') /\ idle w' /\
    (m_moocher (borrower w) = true -> m_moocher (borrower w') = true).
Proof.
  induction cs as [|c cs IH]; intros w Hi; simpl.
  - exists w. split; [reflexivity|]. split; [exact Hi | tauto].
  - destruct (do_call_idle c w Hi) as (w1 & Hrun & Hi1 & _ & Hm1).
    destruct (IH w1 Hi1) as (w2 & Hrun2 & Hi2 & Hm2).
    exists w2. rewrite (bind_Some _ _ _ _ _ Hrun). split; [exact Hrun2|].
    split; [exact Hi2 | tauto].
Qed.

Lemma teardown_idle w : idle w -> teardown w = Some (tt, w).
Proof.
  intros (_ & Hs & _). unfold teardown, bind, gets. simpl. rewrite Hs. reflexivity.
Qed.

(** [main] is the client that makes the calls [main_calls]. *)
Lemma main_client : main boot = client main_calls boot.
Proof. vm_compute. reflexivity. Qed.

End Clients.

(** * The production run *)

Lemma main_second_run :
  (modify (set_borrower Borrower_new) ;; emit (EvBanner "=== First run ===") ;;
   modify (set_producer Producer_new) ;; produce ;;
   emit (EvBanner "=== Second run ===") ;; setBadWill) boot
  = Some (tt, second_run_start).
Proof. vm_compute. reflexivity. Qed.

Lemma wf_second_run_start : wf second_run_start.
Proof. compute_done. Qed.

(** C1, as the specification states it, fails in the second run of [main]:
    the borrower's disposition is claim, [produce] returns, and the object
    made in that run is no longer alive and its destructor has already
    printed. *)
Lemma claimed_resource_not_kept :
  m_moocher (borrower second_run_start) = true /\
  ~ (forall w', produce second_run_start = Some (tt, w') ->
       is_Some (heap w' !! next second_run_start) /\
       EvDtor (next second_run_start) ∉ out w').
Proof.
  split; [reflexivity|]. intros H.
  destruct (H _ (produce_wf _ wf_second_run_start)) as [[d Hd] _].
  vm_compute in Hd. discriminate.
Qed.

(** C1 (amended): in a production run where the borrower's disposition is
    claim, the claimed object is destroyed inside the lending call, at the
    end of the block that holds [data_is_mine_now]: its destructor line
    follows the borrower's report and comes before the producer's
    occupancy check.  The object is not alive when [produce] returns, and
    the teardown at the end of [main] destroys nothing. *)
Theorem claimed_resource_dies_in_borrow w :
  wf w -> m_moocher (borrower w) = true ->
  exists w',
    produce w = Some (tt, w') /\
    heap w' !! next w = None /\
    out w' = out w ++ [EvProducing; EvCtor (next w) "Hello, World!"] ++
                      dtor_events (m_data (producer w)) ++
                      [EvLending; EvBorrowerGot (next w) "Hello, World!";
                       EvDtor (next w);
                       EvMineAgain false; EvDishonest; EvNullNow true] /\
    teardown w' = Some (tt, w').
Proof.
  intros Hwf Hm. exists (produced w). split; [apply produce_wf, Hwf|].
  pose proof (wf_fresh w Hwf) as Hn. pose proof (wf_slot_old w) as Hq.
  unfold produced, run_events. rewrite Hm. simpl. split; [|split; reflexivity].
  destruct (m_data (producer w)) as [q|]; simpl; [|exact Hn].
  rewrite lookup_delete_ne; [exact Hn|]. apply (Hq q Hwf eq_refl).
Qed.

Lemma claimed_resource_dies_in_borrow_witness :
  exists w',
    produce second_run_start = Some (tt, w') /\
    heap w' !! 1 = None /\
    out w' = out second_run_start ++
             [EvProducing; EvCtor 1 "Hello, World!"; EvLending;
              EvBorrowerGot 1 "Hello, World!"; EvDtor 1;
              EvMineAgain false; EvDishonest; EvNullNow true] /\
    teardown w' = Some (tt, w').
Proof.
  apply (claimed_resource_dies_in_borrow second_run_start).
  - compute_done.
  - reflexivity.
Defined.

(** C2: in every call of [produce] where the borrower claims, the producer's
    occupancy check finds the slot empty (it prints [false] and takes the
    branch that only prints), and [consume] is not called: no consumer line
    is printed and the run does not fault, whereas [consume] on an empty
    pointer faults. *)
Theorem claim_run_skips_consumer w :
  wf w -> m_moocher (borrower w) = true ->
  exists w' evs,
    produce w = Some (tt, w') /\
    out w' = out w ++ evs /\
    EvMineAgain false ∈ evs /\ EvDishonest ∈ evs /\
    (forall p s, EvConsumerGot p s ∉ evs) /\
    (forall w0, consume None w0 = None).
Proof.
  intros Hwf Hm.
  exists (produced w), (run_events (m_data (producer w)) true (next w)).
  split; [apply produce_wf, Hwf|]. split; [unfold produced; simpl; rewrite Hm; reflexivity|].
  unfold run_events.
  destruct (m_data (producer w)) as [q|]; simpl;
    (split; [set_solver|]); (split; [set_solver|]); (split; [|reflexivity]);
    intros p s Hin;
    repeat (apply elem_of_cons in Hin as [Hin | Hin]; [discriminate|]);
    apply elem_of_nil in Hin; exact Hin.
Qed.

Lemma claim_run_skips_consumer_witness :
  exists w' evs,
    produce second_run_start = Some (tt, w') /\
    out w' = out second_run_start ++ evs /\
    EvMineAgain false ∈ evs /\ EvDishonest ∈ evs /\
    (forall p s, EvConsumerGot p s ∉ evs) /\
    (forall w0, consume None w0 = None).
Proof.
  apply (claim_run_skips_consumer second_run_start).
  - compute_done.
  - reflexivity.
Defined.

(** C3: whatever the borrower's disposition, [produce] returns with the
    producer's slot empty and the object of that run no longer alive; so a
    second call, made directly or after [setBadWill], constructs into an
    empty slot (the assignment to [m_data] has no old object to destroy)
    and again leaves the slot empty. *)
Theorem slot_empty_after_produce w :
  wf w ->
  exists w1 w2 w2',
    produce w = Some (tt, w1) /\
    m_data (producer w1) = None /\
    heap w1 !! next w = None /\
    produce w1 = Some (tt, w2) /\
    m_data (producer w2) = None /\
    out w2 = out w1 ++ run_events None (m_moocher (borrower w)) (next w1) /\
    (setBadWill ;; produce) w1 = Some (tt, w2') /\
    m_data (producer w2') = None /\
    out w2' = out w1 ++ run_events None true (next w1).
Proof.
  intros Hwf. pose proof (wf_produced w Hwf) as Hwf1.
  assert (Hwf1' : wf (set_borrower (mkBorrower true) (produced w))).
  { destruct Hwf1 as [H1 H2]. split; [exact H1 | exact H2]. }
  exists (produced w), (produced (produced w)),
         (produced (set_borrower (mkBorrower true) (produced w))).
  split; [apply produce_wf, Hwf|]. split; [reflexivity|].
  split.
  { pose proof (wf_fresh w Hwf) as Hn. pose proof (wf_slot_old w) as Hq. simpl.
    destruct (m_data (producer w)) as [q|]; simpl; [|exact Hn].
    rewrite lookup_delete_ne; [exact Hn|]. apply (Hq q Hwf eq_refl). }
  split; [apply produce_wf, Hwf1|]. split; [reflexivity|]. split; [reflexivity|].
  split; [|split; reflexivity].
  unfold setBadWill. step reflexivity. apply (produce_wf _ Hwf1').
Qed.

Lemma slot_empty_after_produce_witness :
  exists w1 w2 w2',
    produce boot = Some (tt, w1) /\
    m_data (producer w1) = None /\
    heap w1 !! 0 = None /\
    produce w1 = Some (tt, w2) /\
    m_data (producer w2) = None /\
    out w2 = out w1 ++ run_events None false (next w1) /\
    (setBadWill ;; produce) w1 = Some (tt, w2') /\
    m_data (producer w2') = None /\
    out w2' = out w1 ++ run_events None true (next w1).
Proof.
  apply (slot_empty_after_produce boot). compute_done.
Defined.

(** C4: in every call of [produce] where the borrower does not claim, the
    consumer reports the payload of the object constructed in that very
    call (same object, same payload as the constructor was given), the
    producer's own check right after the transfer prints that the slot is
    empty, and the slot is empty when [produce] returns. *)
Theorem untouched_run_consumer_gets_payload w :
  wf w -> m_moocher (borrower w) = false ->
  exists w' s,
    produce w = Some (tt, w') /\
    out w' = out w ++ [EvProducing; EvCtor (next w) s] ++
                      dtor_events (m_data (producer w)) ++
                      [EvLending; EvBorrowerGot (next w) s; EvMineAgain true;
                       EvConsumerGot (next w) s; EvDtor (next w);
                       EvNullNow true] /\
    m_data (producer w') = None.
Proof.
  intros Hwf Hm. exists (produced w), "Hello, World!".
  split; [apply produce_wf, Hwf|]. split; [|reflexivity].
  unfold produced, run_events. rewrite Hm. reflexivity.
Qed.

Lemma untouched_run_consumer_gets_payload_witness :
  exists w' s,
    produce boot = Some (tt, w') /\
    out w' = [EvProducing; EvCtor 0 s; EvLending; EvBorrowerGot 0 s;
              EvMineAgain true; EvConsumerGot 0 s; EvDtor 0; EvNullNow true] /\
    m_data (producer w') = None.
Proof.
  apply (untouched_run_consumer_gets_payload boot).
  - compute_done.
  - reflexivity.
Defined.

(** C6: in every lending call where the borrower does not claim, on a slot
    that owns a live object, the borrower prints the payload and changes
    nothing else: the free store (hence the object and its payload), the
    caller's slot, the allocation counter and the borrower itself are as
    before. *)
Theorem borrow_untouched_frame w p d :
  m_moocher (borrower w) = false ->
  m_data (producer w) = Some p ->
  heap w !! p = Some d ->
  exists w',
    borrow m_data_ref w = Some (tt, w') /\
    out w' = out w ++ [EvBorrowerGot p (m_datum d)] /\
    heap w' = heap w /\
    m_data (producer w') = Some p /\
    next w' = next w /\
    borrower w' = borrower w.
Proof.
  intros Hm Hs Hd. eexists. split.
  - apply (borrow_untouched m_data_ref p d w Hm Hs Hd).
  - simpl. rewrite Hs. repeat split.
Qed.

Lemma borrow_untouched_frame_witness :
  exists w',
    borrow m_data_ref lending_world = Some (tt, w') /\
    out w' = out lending_world ++ [EvBorrowerGot 0 "Hello, World!"] /\
    heap w' = heap lending_world /\
    m_data (producer w') = Some 0 /\
    next w' = next lending_world /\
    borrower w' = borrower lending_world.
Proof.
  apply (borrow_untouched_frame lending_world 0 (mkData "Hello, World!")).
  - reflexivity.
  - reflexivity.
  - vm_compute. reflexivity.
Defined.

(** * The borrower's disposition *)

Section Frame.

Lemma keeps_ret {A} (a : A) : keeps_borrower (ret a).
Proof. intros w a' w' H. injection H as _ <-. reflexivity. Qed.

Lemma keeps_fault {A} : keeps_borrower (@fault A).
Proof. intros w a w' H. discriminate. Qed.

Lemma keeps_gets {A} (f : World -> A) : keeps_borrower (gets f).
Proof. intros w a w' H. injection H as _ <-. reflexivity. Qed.

Lemma keeps_modify f :
  (forall w, borrower (f w) = borrower w) -> keeps_borrower (modify f).
Proof. intros Hf w a w' H. injection H as _ <-. apply Hf. Qed.

Lemma keeps_bind {A B} (m : M A) (k : A -> M B) :
  keeps_borrower m -> (forall a, keeps_borrower (k a)) ->
  keeps_borrower (bind m k).
Proof.
  intros Hm Hk w b w'' H. apply bind_inv in H as (a & w' & H1 & H2).
  rewrite (Hk a w' b w'' H2). exact (Hm w a w' H1).
Qed.

Lemma keeps_emit e : keeps_borrower (emit e).
Proof. apply keeps_modify. reflexivity. Qed.

Lemma keeps_new_Data s : keeps_borrower (new_Data s).
Proof.
  unfold new_Data. apply keeps_bind; [apply keeps_gets|]. intros this.
  apply keeps_bind; [apply keeps_modify; reflexivity|]. intros _.
  apply keeps_bind; [apply keeps_emit|]. intros _. apply keeps_ret.
Qed.

Lemma keeps_delete_Data p : keeps_borrower (delete_Data p).
Proof.
  unfold delete_Data. apply keeps_bind; [apply keeps_gets|]. intros h.
  destruct (h !! p); [|apply keeps_fault].
  apply keeps_bind; [apply keeps_emit|]. intros _.
  apply keeps_modify. reflexivity.
Qed.

Lemma keeps_datum p : keeps_borrower (datum p).
Proof.
  unfold datum. apply keeps_bind; [apply keeps_gets|]. intros h.
  destruct (h !! p); [apply keeps_ret | apply keeps_fault].
Qed.

Lemma keeps_arrow u : keeps_borrower (arrow u).
Proof. destruct u; [apply keeps_ret | apply keeps_fault]. Qed.

Lemma keeps_unique_ptr_dtor u : keeps_borrower (unique_ptr_dtor u).
Proof. destruct u; [apply keeps_delete_Data | apply keeps_ret]. Qed.

Lemma keeps_move_from : keeps_borrower (move_from m_data_ref).
Proof.
  unfold move_from. apply keeps_bind; [apply keeps_gets|]. intros u.
  apply keeps_bind; [apply keeps_modify; reflexivity|]. intros _.
  apply keeps_ret.
Qed.

Lemma keeps_move_assign u : keeps_borrower (move_assign m_data_ref u).
Proof.
  unfold move_assign. apply keeps_bind; [apply keeps_gets|]. intros old.
  apply keeps_bind; [apply keeps_modify; reflexivity|]. intros _.
  apply keeps_unique_ptr_dtor.
Qed.

Lemma keeps_consume u : keeps_borrower (consume u).
Proof.
  unfold consume. apply keeps_bind; [apply keeps_arrow|]. intros this.
  apply keeps_bind; [apply keeps_datum|]. intros s.
  apply keeps_bind; [apply keeps_emit|]. intros _.
  apply keeps_unique_ptr_dtor.
Qed.

Lemma keeps_borrow : keeps_borrower (borrow m_data_ref).
Proof.
  unfold borrow. apply keeps_bind; [apply keeps_gets|]. intros d.
  apply keeps_bind; [apply keeps_arrow|]. intros this.
  apply keeps_bind; [apply keeps_datum|]. intros s.
  apply keeps_bind; [apply keeps_emit|]. intros _.
  apply keeps_bind; [apply keeps_gets|]. intros [|]; [|apply keeps_ret].
  apply keeps_bind; [apply keeps_move_from|]. intros mine.
  apply keeps_unique_ptr_dtor.
Qed.

Lemma keeps_produce : keeps_borrower produce.
Proof.
  unfold produce. apply keeps_bind; [apply keeps_emit|]. intros _.
  apply keeps_bind; [apply keeps_new_Data|]. intros fresh.
  apply keeps_bind; [apply keeps_move_assign|]. intros _.
  apply keeps_bind; [apply keeps_emit|]. intros _.
  apply keeps_bind; [apply keeps_borrow|]. intros _.
  apply keeps_bind; [apply keeps_gets|]. intros d.
  apply keeps_bind; [apply keeps_emit|]. intros _.
  apply keeps_bind; [apply keeps_gets|]. intros d0.
  apply keeps_bind.
  - destruct (negb (owns d0)); [apply keeps_emit|].
    apply keeps_bind; [apply keeps_move_from|]. intros arg. apply keeps_consume.
  - intros _. apply keeps_bind; [apply keeps_gets|]. intros d1. apply keeps_emit.
Qed.

(** No call of a client clears the flag. *)
Lemma do_call_moocher c w w' :
  m_moocher (borrower w) = true -> do_call c w = Some (tt, w') ->
  m_moocher (borrower w') = true.
Proof.
  intros Hm H. destruct c; simpl in H.
  - rewrite (keeps_emit _ _ _ _ H). exact Hm.
  - rewrite (keeps_produce _ _ _ H). exact Hm.
  - injection H as <-. reflexivity.
Qed.

Lemma do_calls_moocher cs : forall w w',
  m_moocher (borrower w) = true -> do_calls cs w = Some (tt, w') ->
  m_moocher (borrower w') = true.
Proof.
  induction cs as [|c cs IH]; intros w w' Hm H; simpl in H.
  - injection H as <-. exact Hm.
  - apply bind_inv in H as ([] & w1 & H1 & H2).
    apply (IH w1 w'); [|exact H2]. exact (do_call_moocher c w w1 Hm H1).
Qed.

Lemma do_call_wf c w : wf w -> exists w', do_call c w = Some (tt, w') /\ wf w'.
Proof.
  intros Hwf. destruct c; simpl.
  - eexists. split; [reflexivity|]. exact Hwf.
  - exists (produced w). split; [apply produce_wf, Hwf | apply wf_produced, Hwf].
  - eexists. split; [reflexivity|]. exact Hwf.
Qed.

Lemma do_calls_wf cs : forall w,
  wf w -> exists w', do_calls cs w = Some (tt, w') /\ wf w'.
Proof.
  induction cs as [|c cs IH]; intros w Hwf; simpl.
  - exists w. split; [reflexivity | exact Hwf].
  - destruct (do_call_wf c w Hwf) as (w1 & H1 & Hwf1).
    destruct (IH w1 Hwf1) as (w2 & H2 & Hwf2).
    exists w2. rewrite (bind_Some _ _ _ _ _ H1). split; assumption.
Qed.

End Frame.

(** C8: the borrower's disposition is one-way.  A new [Borrower] does not
    claim; [setBadWill] always succeeds and sets the flag; no call that a
    client can make clears it; so from any well-formed world where it is
    set, after any further calls it is still set and the next production
    run takes the claiming path (the borrower takes the object out of the
    slot, the producer finds the slot empty). *)
Theorem moocher_one_way :
  m_moocher Borrower_new = false /\
  (forall w, exists w',
      setBadWill w = Some (tt, w') /\ m_moocher (borrower w') = true) /\
  (forall cs w w',
      m_moocher (borrower w) = true -> do_calls cs w = Some (tt, w') ->
      m_moocher (borrower w') = true) /\
  (forall cs w,
      wf w -> m_moocher (borrower w) = true ->
      exists w1 w2,
        do_calls cs w = Some (tt, w1) /\
        m_moocher (borrower w1) = true /\
        produce w1 = Some (tt, w2) /\
        out w2 = out w1 ++ run_events (m_data (producer w1)) true (next w1) /\
        m_moocher (borrower w2) = true).
Proof.
  split; [reflexivity|]. split; [|split].
  - intros w. eexists. split; reflexivity.
  - intros cs w w'. apply do_calls_moocher.
  - intros cs w Hwf Hm.
    destruct (do_calls_wf cs w Hwf) as (w1 & H1 & Hwf1).
    pose proof (do_calls_moocher cs w w1 Hm H1) as Hm1.
    exists w1, (produced w1). split; [exact H1|]. split; [exact Hm1|].
    split; [apply produce_wf, Hwf1|]. simpl. rewrite Hm1. split; reflexivity.
Qed.

Lemma moocher_one_way_witness :
  exists w1 w2,
    do_calls [CallProduce; CallBanner "again"] second_run_start = Some (tt, w1) /\
    m_moocher (borrower w1) = true /\
    produce w1 = Some (tt, w2) /\
    out w2 = out w1 ++ run_events (m_data (producer w1)) true (next w1) /\
    m_moocher (borrower w2) = true.
Proof.
  destruct moocher_one_way as (_ & _ & _ & H).
  apply (H [CallProduce; CallBanner "again"] second_run_start).
  - compute_done.
  - reflexivity.
Defined.

(** * Whole executions *)

Section Executions.

Lemma hello_only_app t l : hello_only t -> hello_only l -> hello_only (t ++ l).
Proof.
  intros Ht Hl e s He. apply elem_of_app in He as [He | He]; eauto.
Qed.

Lemma hello_only_run old b n : hello_only (run_events old b n).
Proof.
  intros e s He Hs. unfold run_events in He.
  destruct old, b; simpl in He;
    repeat (apply elem_of_cons in He as [-> | He]; [simpl in Hs; congruence|]);
    apply elem_of_nil in He; contradiction.
Qed.

Lemma hello_only_call c b n : hello_only (call_events c b n).
Proof.
  destruct c; simpl.
  - intros e s He Hs. apply list_elem_of_singleton in He as ->. discriminate.
  - apply hello_only_run.
  - intros e s He. apply elem_of_nil in He. contradiction.
Qed.

Lemma do_calls_hello cs : forall w w',
  idle w -> hello_only (out w) -> do_calls cs w = Some (tt, w') ->
  hello_only (out w').
Proof.
  induction cs as [|c cs IH]; intros w w' Hi Hh H; simpl in H.
  - injection H as <-. exact Hh.
  - destruct (do_call_idle c w Hi) as (w1 & H1 & Hi1 & Ho & _).
    rewrite (bind_Some _ _ _ _ _ H1) in H.
    apply (IH w1 w' Hi1); [|exact H].
    rewrite Ho. apply hello_only_app; [exact Hh | apply hello_only_call].
Qed.

(** What every client run ends with. *)
Lemma client_end cs :
  exists w', client cs boot = Some (0%Z, w') /\ idle w' /\ hello_only (out w').
Proof.
  destruct (do_calls_idle cs boot idle_boot) as (w' & Hrun & Hi & _).
  exists w'. split; [|split; [exact Hi|]].
  - unfold client. step reflexivity. step reflexivity. step exact Hrun.
    step (apply teardown_idle, Hi). reflexivity.
  - apply (do_calls_hello cs boot w' idle_boot); [|exact Hrun].
    intros e s He. apply elem_of_nil in He. contradiction.
Qed.

End Executions.

(** C5: in the run of [main], and in the run of any client, every object
    that the trace speaks of has exactly one constructor line and exactly
    one destructor line, the constructor line comes first, and every line
    that reports a read of its payload lies between the two.  The objects
    are exactly those allocated, numbered below [next]. *)
Theorem every_resource_one_life :
  (exists w', main boot = Some (0%Z, w') /\
     lifecycle (out w') 0 /\ lifecycle (out w') 1 /\
     forall e i, e ∈ out w' -> ev_obj e = Some i -> lifecycle (out w') i) /\
  (forall cs, exists w', client cs boot = Some (0%Z, w') /\
     (forall i, i < next w' -> lifecycle (out w') i) /\
     (forall e i, e ∈ out w' -> ev_obj e = Some i -> lifecycle (out w') i)).
Proof.
  assert (G : forall cs, exists w', client cs boot = Some (0%Z, w') /\
     (forall i, i < next w' -> lifecycle (out w') i) /\
     (forall e i, e ∈ out w' -> ev_obj e = Some i -> lifecycle (out w') i)).
  { intros cs. destruct (client_end cs) as (w' & Hrun & (_ & _ & Hl & Hb) & _).
    exists w'. split; [exact Hrun|]. split; [exact Hl|].
    intros e i He Hi. apply Hl. exact (Hb e i He Hi). }
  split; [|exact G].
  destruct (G main_calls) as (w' & Hrun & Hl & Hall).
  exists w'. rewrite main_client. split; [exact Hrun|].
  assert (Hn : next w' = 2).
  { assert (E : client main_calls boot = Some (0%Z, produced second_run_start))
      by (vm_compute; reflexivity).
    rewrite E in Hrun. injection Hrun as <-. reflexivity. }
  split; [apply Hl; lia|]. split; [apply Hl; lia | exact Hall].
Qed.

(** C7: [main] takes no argument.  It sets the objects up with a borrower
    that does not claim and calls [produce]; it then calls [setBadWill], so
    that the borrower claims, and calls [produce] again; it returns 0.  Its
    trace shows exactly two production runs, the first along the consuming
    path and the second along the claiming path. *)
Theorem main_two_runs_exit_zero :
  exists w1 w2 w3 w4,
    (modify (set_borrower Borrower_new) ;;
     emit (EvBanner "=== First run ===") ;;
     modify (set_producer Producer_new)) boot = Some (tt, w1) /\
    m_moocher (borrower w1) = false /\
    produce w1 = Some (tt, w2) /\
    (emit (EvBanner "=== Second run ===") ;; setBadWill) w2 = Some (tt, w3) /\
    m_moocher (borrower w3) = true /\
    produce w3 = Some (tt, w4) /\
    teardown w4 = Some (tt, w4) /\
    main boot = Some (0%Z, w4) /\
    runs_in (out w4) = 2 /\
    out w4 = [EvBanner "=== First run ==="] ++ run_events None false 0 ++
             [EvBanner "=== Second run ==="] ++ run_events None true 1.
Proof.
  exists (mkWorld ∅ 0 Borrower_new Producer_new [EvBanner "=== First run ==="]).
  exists (produced (mkWorld ∅ 0 Borrower_new Producer_new [EvBanner "=== First run ==="])).
  exists second_run_start, (produced second_run_start).
  repeat split; vm_compute; reflexivity.
Qed.

(** C9: [borrow] and [consume] dereference their pointer at once, so a call
    with an empty pointer faults.  No execution faults: [produce] runs to
    completion from every well-formed world, and so do [main] and every
    client; hence both functions are only ever entered with a pointer that
    owns a live object, and every report line names that object. *)
Theorem no_null_dereference :
  (forall r w, load r w = None -> borrow r w = None) /\
  (forall w, consume None w = None) /\
  (forall w, wf w -> exists w', produce w = Some (tt, w') /\ wf w') /\
  (forall cs, exists w', client cs boot = Some (0%Z, w')) /\
  (exists w', main boot = Some (0%Z, w')).
Proof.
  split; [exact borrow_null|]. split; [exact consume_null|].
  split; [|split].
  - intros w Hwf. exists (produced w).
    split; [apply produce_wf, Hwf | apply wf_produced, Hwf].
  - intros cs. destruct (client_end cs) as (w' & H & _). exists w'. exact H.
  - rewrite main_client. destruct (client_end main_calls) as (w' & H & _).
    exists w'. exact H.
Qed.

Lemma no_null_dereference_witness :
  exists w', produce second_run_start = Some (tt, w') /\ wf w'.
Proof.
  destruct no_null_dereference as (_ & _ & H & _).
  apply (H second_run_start). compute_done.
Defined.

(** C10: [produce] takes no argument and constructs its object with the
    literal "Hello, World!" whatever the world it runs in; every payload
    that the run prints is that literal, and so is every payload in the
    trace of [main] and of any client. *)
Theorem payload_always_hello :
  (forall w, wf w ->
     exists w' evs,
       produce w = Some (tt, w') /\ out w' = out w ++ evs /\
       EvCtor (next w) "Hello, World!" ∈ evs /\
       forall e s, e ∈ evs -> ev_payload e = Some s -> s = "Hello, World!") /\
  (forall cs, exists w',
     client cs boot = Some (0%Z, w') /\
     forall e s, e ∈ out w' -> ev_payload e = Some s -> s = "Hello, World!") /\
  (exists w',
     main boot = Some (0%Z, w') /\
     forall e s, e ∈ out w' -> ev_payload e = Some s -> s = "Hello, World!").
Proof.
  split; [|split].
  - intros w Hwf.
    exists (produced w),
           (run_events (m_data (producer w)) (m_moocher (borrower w)) (next w)).
    split; [apply produce_wf, Hwf|]. split; [reflexivity|].
    split; [|apply hello_only_run].
    unfold run_events. set_solver.
  - intros cs. destruct (client_end cs) as (w' & H & _ & Hh). exists w'.
    split; [exact H | exact Hh].
  - rewrite main_client. destruct (client_end main_calls) as (w' & H & _ & Hh).
    exists w'. split; [exact H | exact Hh].
Qed.

Lemma payload_always_hello_witness :
  exists w' evs,
    produce boot = Some (tt, w') /\ out w' = out boot ++ evs /\
    EvCtor (next boot) "Hello, World!" ∈ evs /\
    forall e s, e ∈ evs -> ev_payload e = Some s -> s = "Hello, World!".
Proof.
  destruct payload_always_hello as (H & _).
  apply (H boot). compute_done.
Defined.

(** * Using a slot after it was moved from *)

Section UseAfterMove.

Lemma hand_over_live p d w :
  m_data (producer w) = Some p -> heap w !! p = Some d ->
  hand_over w =
    Some (tt, mkWorld (delete p (heap w)) (next w) (borrower w) (mkProducer None)
                      (out w ++ [EvConsumerGot p (m_datum d); EvDtor p])).
Proof.
  intros Hs Hd. unfold hand_over, move_from.
  step (step reflexivity; step reflexivity; reflexivity).
  rewrite Hs. erewrite consume_live by (simpl; exact Hd). reflexivity.
Qed.

Lemma hand_over_empty w : m_data (producer w) = None -> hand_over w = None.
Proof.
  intros Hs. unfold hand_over, move_from.
  step (step reflexivity; step reflexivity; reflexivity).
  rewrite Hs. reflexivity.
Qed.

Lemma lend_empty w : m_data (producer w) = None -> lend w = None.
Proof. intros Hs. apply borrow_null. exact Hs. Qed.

End UseAfterMove.

(** X1: what the producer's occupancy check guards against.  After a
    lending call in which the borrower claimed, handing the slot to the
    consumer, as the [else] branch of [produce] does, dereferences an empty
    pointer: the run faults. *)
Theorem hand_over_after_claim_faults w p d :
  m_moocher (borrower w) = true ->
  m_data (producer w) = Some p ->
  heap w !! p = Some d ->
  (exists w1, lend w = Some (tt, w1) /\ m_data (producer w1) = None) /\
  (lend ;; hand_over) w = None.
Proof.
  intros Hm Hs Hd. pose proof (borrow_claim p d w Hm Hs Hd) as Hb.
  split.
  - eexists. split; [exact Hb | reflexivity].
  - unfold lend. rewrite (bind_Some _ _ _ _ _ Hb). apply hand_over_empty. reflexivity.
Qed.

Lemma hand_over_after_claim_faults_witness :
  (exists w1, lend claiming_world = Some (tt, w1) /\ m_data (producer w1) = None) /\
  (lend ;; hand_over) claiming_world = None.
Proof.
  apply (hand_over_after_claim_faults claiming_world 1 (mkData "Hello, World!")).
  - reflexivity.
  - reflexivity.
  - vm_compute. reflexivity.
Defined.



(** X3: the consumer is the end of the line.  Handing an occupied slot to
    the consumer succeeds, destroys the object and leaves the slot empty;
    handing the slot over a second time faults, and so does lending it
    again. *)
Theorem hand_over_is_final w p d :
  m_data (producer w) = Some p ->
  heap w !! p = Some d ->
  (exists w1, hand_over w = Some (tt, w1) /\
              m_data (producer w1) = None /\ heap w1 !! p = None /\
              out w1 = out w ++ [EvConsumerGot p (m_datum d); EvDtor p]) /\
  (hand_over ;; hand_over) w = None /\
  (hand_over ;; lend) w = None.
Proof.
  intros Hs Hd. pose proof (hand_over_live p d w Hs Hd) as Hh.
  split; [|split].
  - eexists. split; [exact Hh|]. simpl. split; [reflexivity|].
    split; [apply lookup_delete_eq | reflexivity].
  - rewrite (bind_Some _ _ _ _ _ Hh). apply hand_over_empty. reflexivity.
  - rewrite (bind_Some _ _ _ _ _ Hh). apply lend_empty. reflexivity.
Qed.

Lemma hand_over_is_final_witness :
  (exists w1, hand_over lending_world = Some (tt, w1) /\
              m_data (producer w1) = None /\ heap w1 !! 0 = None /\
              out w1 = out lending_world ++
                       [EvConsumerGot 0 "Hello, World!"; EvDtor 0]) /\
  (hand_over ;; hand_over) lending_world = None /\
  (hand_over ;; lend) lending_world = None.
Proof.
  apply (hand_over_is_final lending_world 0 (mkData "Hello, World!")).
  - reflexivity.
  - vm_compute. reflexivity.
Defined.



(** * Clients, call by call *)

Section ClientTraces.

Lemma one_at_a_time_nil : one_at_a_time [].
Proof. intros a b i j s Ha. rewrite lookup_nil in Ha. discriminate. Qed.

Lemma one_at_a_time_banner t title :
  one_at_a_time t -> one_at_a_time (t ++ [EvBanner title]).
Proof.
  intros Ht a b i j s Ha Hb Hij.
  apply lookup_app_Some in Ha as [Ha | [_ Ha]];
    [|apply list_lookup_singleton_Some in Ha as [_ Ha]; discriminate].
  apply lookup_app_Some in Hb as [Hb | [_ Hb]];
    [|apply list_lookup_singleton_Some in Hb as [_ Hb]; discriminate].
  exact (Ht a b i j s Ha Hb Hij).
Qed.

Lemma one_at_a_time_run t n b :
  closed t n -> one_at_a_time t -> one_at_a_time (t ++ run_events None b n).
Proof.
  intros [_ Hb] Ht x y i j s Hx Hy Hij.
  apply lookup_app_Some in Hy as [Hy | [Hle Hy]].
  - (* the later object is an old one, so the earlier one is too *)
    assert (Hj : j < n) by (apply (Hb _ j (list_elem_of_lookup_2 _ _ _ Hy)); reflexivity).
    apply lookup_app_Some in Hx as [Hx | [_ Hx]].
    + exact (Ht x y i j s Hx Hy Hij).
    + apply list_elem_of_lookup_2 in Hx.
      pose proof (run_events_obj b n _ i Hx eq_refl). lia.
  - (* the later object is the new one; the earlier one was destroyed before *)
    apply lookup_app_Some in Hx as [Hx | [_ Hx]].
    + apply lookup_lt_Some in Hx. lia.
    + apply list_elem_of_lookup_2 in Hx, Hy.
      pose proof (run_events_obj b n _ i Hx eq_refl).
      pose proof (run_events_obj b n _ j Hy eq_refl). lia.
Qed.

(** One call from an idle world, field by field. *)
Lemma do_call_fields c w :
  idle w ->
  exists w',
    do_call c w = Some (tt, w') /\ idle w' /\
    out w' = out w ++ trace_from [c] (m_moocher (borrower w)) (next w) /\
    next w' = next w + count_produce [c] /\
    m_moocher (borrower w') =
      m_moocher (borrower w) || bool_decide (c = CallSetBadWill) /\
    (one_at_a_time (out w) -> one_at_a_time (out w')).
Proof.
  intros Hi. pose proof (idle_wf w Hi) as Hwf.
  destruct Hi as (Hh & Hs & Hc). destruct c as [t | |]; simpl.
  - eexists. split; [reflexivity|]. simpl.
    split; [split; [exact Hh | split; [exact Hs | apply closed_banner, Hc]]|].
    split; [reflexivity|]. split; [unfold count_produce; simpl; lia|].
    split; [rewrite orb_false_r; reflexivity | apply one_at_a_time_banner].
  - exists (produced w). split; [apply produce_wf, Hwf|].
    unfold produced. rewrite Hs, Hh. simpl.
    split; [split; [reflexivity | split; [reflexivity | apply closed_run, Hc]]|].
    rewrite app_nil_r.
    split; [reflexivity|]. split; [unfold count_produce; simpl; lia|].
    split; [rewrite orb_false_r; reflexivity | apply one_at_a_time_run, Hc].
  - eexists. split; [reflexivity|]. simpl. rewrite app_nil_r.
    split; [split; [exact Hh | split; [exact Hs | exact Hc]]|].
    split; [reflexivity|]. split; [unfold count_produce; simpl; lia|].
    split; [rewrite orb_true_r; reflexivity | tauto].
Qed.

Lemma trace_from_cons c cs b n :
  trace_from (c :: cs) b n =
    trace_from [c] b n ++
    trace_from cs (b || bool_decide (c = CallSetBadWill)) (n + count_produce [c]).
Proof.
  destruct c as [t | |].
  - assert (count_produce [CallBanner t] = 0) as -> by reflexivity.
    simpl. rewrite orb_false_r, Nat.add_0_r. reflexivity.
  - assert (count_produce [CallProduce] = 1) as -> by reflexivity.
    simpl. rewrite orb_false_r, app_nil_r, Nat.add_1_r. reflexivity.
  - assert (count_produce [CallSetBadWill] = 0) as -> by reflexivity.
    simpl. rewrite orb_true_r, Nat.add_0_r. reflexivity.
Qed.

Lemma count_produce_cons c cs :
  count_produce (c :: cs) = count_produce [c] + count_produce cs.
Proof.
  unfold count_produce. change (c :: cs) with ([c] ++ cs).
  rewrite filter_app, length_app. reflexivity.
Qed.

(** A sequence of calls from an idle world, field by field. *)
Lemma do_calls_fields cs : forall w,
  idle w ->
  exists w',
    do_calls cs w = Some (tt, w') /\ idle w' /\
    out w' = out w ++ trace_from cs (m_moocher (borrower w)) (next w) /\
    next w' = next w + count_produce cs /\
    m_moocher (borrower w') =
      m_moocher (borrower w) || bool_decide (CallSetBadWill ∈ cs) /\
    (one_at_a_time (out w) -> one_at_a_time (out w')).
Proof.
  induction cs as [|c cs IH]; intros w Hi.
  - exists w. split; [reflexivity|]. split; [exact Hi|]. simpl.
    rewrite app_nil_r. split; [reflexivity|].
    split; [unfold count_produce; simpl; lia|].
    split; [|tauto].
    rewrite orb_false_r. reflexivity.
  - destruct (do_call_fields c w Hi) as (w1 & H1 & Hi1 & Ho1 & Hn1 & Hm1 & Hs1).
    destruct (IH w1 Hi1) as (w2 & H2 & Hi2 & Ho2 & Hn2 & Hm2 & Hs2).
    exists w2. simpl. rewrite (bind_Some _ _ _ _ _ H1).
    split; [exact H2|]. split; [exact Hi2|].
    split; [|split; [|split]].
    + rewrite Ho2, Ho1, Hm1, Hn1, <- app_assoc, <- trace_from_cons. reflexivity.
    + rewrite Hn2, Hn1, (count_produce_cons c cs). lia.
    + rewrite Hm2, Hm1, <- orb_assoc. f_equal.
      rewrite <- bool_decide_or. apply bool_decide_ext. rewrite elem_of_cons.
      split; (intros [E | E]; [left; congruence | right; exact E]).
    + intros Hs. apply Hs2, Hs1, Hs.
Qed.

Lemma runs_in_trace_from cs : forall b n,
  runs_in (trace_from cs b n) = count_produce cs.
Proof.
  induction cs as [|c cs IH]; intros b n; [reflexivity|].
  rewrite count_produce_cons. unfold runs_in in *.
  destruct c as [t | |]; cbn [trace_from].
  - rewrite filter_cons_False by discriminate. apply IH.
  - rewrite filter_app, length_app, IH. destruct b; reflexivity.
  - apply IH.
Qed.

(** What every client run ends with, field by field. *)
Lemma client_fields cs :
  exists w',
    client cs boot = Some (0%Z, w') /\ idle w' /\
    out w' = trace_from cs false 0 /\
    next w' = count_produce cs /\
    m_moocher (borrower w') = bool_decide (CallSetBadWill ∈ cs) /\
    one_at_a_time (out w').
Proof.
  destruct (do_calls_fields cs boot idle_boot)
    as (w' & Hrun & Hi & Ho & Hn & Hm & Hs).
  exists w'. split; [|split; [exact Hi|]].
  - unfold client. step reflexivity. step reflexivity. step exact Hrun.
    step (apply teardown_idle, Hi). reflexivity.
  - split; [exact Ho|]. split; [exact Hn|]. split; [exact Hm|].
    apply Hs, one_at_a_time_nil.
Qed.

End ClientTraces.

(** X5: the output of any client is determined by its list of calls.  The
    run prints, call by call, a banner for a banner call, nothing for
    [setBadWill], and for each call of [produce] the eight lines of a run:
    along the consuming path as long as [setBadWill] has not been called,
    along the claiming path from then on, with the objects numbered in
    order of production. *)
Theorem client_trace_closed_form cs :
  exists w', client cs boot = Some (0%Z, w') /\ out w' = trace_from cs false 0.
Proof.
  destruct (client_fields cs) as (w' & Hrun & _ & Ho & _).
  exists w'. split; [exact Hrun | exact Ho].
Qed.

(** X6: what any client leaves behind.  When the client returns, no [Data]
    object is alive and the slot is empty; the number of objects allocated
    and the number of production runs in the output both equal the number
    of calls of [produce]; and the borrower claims exactly when
    [setBadWill] was called at least once. *)
Theorem client_accounts cs :
  exists w',
    client cs boot = Some (0%Z, w') /\
    heap w' = ∅ /\
    m_data (producer w') = None /\
    next w' = count_produce cs /\
    runs_in (out w') = count_produce cs /\
    (m_moocher (borrower w') = true <-> CallSetBadWill ∈ cs).
Proof.
  destruct (client_fields cs) as (w' & Hrun & (Hh & Hs & _) & Ho & Hn & Hm & _).
  exists w'. split; [exact Hrun|]. split; [exact Hh|]. split; [exact Hs|].
  split; [exact Hn|]. split; [rewrite Ho; apply runs_in_trace_from|].
  rewrite Hm. apply bool_decide_eq_true.
Qed.


(** * What holds of every run that returns, from any world *)

Section StepsIn.

Variable R : World -> World -> Prop.
Hypothesis R_refl : forall w, R w w.
Hypothesis R_trans : forall w1 w2 w3, R w1 w2 -> R w2 w3 -> R w1 w3.
Hypothesis R_out : forall w e, R w (set_out (out w ++ [e]) w).
Hypothesis R_heap : forall w h, R w (set_heap h w).
Hypothesis R_alloc : forall w h, R w (set_next (S (next w)) (set_heap h w)).

Lemma steps_ret {A} (a : A) : steps_in R (ret a).
Proof. intros w a' w' H. injection H as _ <-. apply R_refl. Qed.

Lemma steps_fault {A} : steps_in R (@fault A).
Proof. intros w a w' H. discriminate. Qed.

Lemma steps_gets {A} (f : World -> A) : steps_in R (gets f).
Proof. intros w a w' H. injection H as _ <-. apply R_refl. Qed.

Lemma steps_bind {A B} (m : M A) (k : A -> M B) :
  steps_in R m -> (forall a, steps_in R (k a)) -> steps_in R (bind m k).
Proof.
  intros Hm Hk w b w'' H. apply bind_inv in H as (a & w' & H1 & H2).
  exact (R_trans _ _ _ (Hm w a w' H1) (Hk a w' b w'' H2)).
Qed.

Lemma steps_emit e : steps_in R (emit e).
Proof. intros w a w' H. injection H as _ <-. apply R_out. Qed.


Lemma steps_delete_Data p : steps_in R (delete_Data p).
Proof.
  unfold delete_Data. apply steps_bind; [apply steps_gets|]. intros h.
  destruct (h !! p); [|apply steps_fault].
  apply steps_bind; [apply steps_emit|]. intros _.
  intros w a w' H. injection H as _ <-. apply R_heap.
Qed.

Lemma steps_datum p : steps_in R (datum p).
Proof.
  unfold datum. apply steps_bind; [apply steps_gets|]. intros h.
  destruct (h !! p); [apply steps_ret | apply steps_fault].
Qed.

Lemma steps_arrow u : steps_in R (arrow u).
Proof. destruct u; [apply steps_ret | apply steps_fault]. Qed.

Lemma steps_unique_ptr_dtor u : steps_in R (unique_ptr_dtor u).
Proof. destruct u; [apply steps_delete_Data | apply steps_ret]. Qed.

Lemma steps_consume u : steps_in R (consume u).
Proof.
  unfold consume. apply steps_bind; [apply steps_arrow|]. intros this.
  apply steps_bind; [apply steps_datum|]. intros s.
  apply steps_bind; [apply steps_emit|]. intros _.
  apply steps_unique_ptr_dtor.
Qed.

(** The operations that write the producer's slot. *)
Hypothesis R_slot : forall w u, R w (set_producer (mkProducer u) w).





(** The operation that writes the borrower's flag. *)
Hypothesis R_flag : forall w b, R w (set_borrower b w).



End StepsIn.

Section Growth.








Lemma consume_same_producer u : steps_in same_producer (consume u).
Proof.
  apply steps_consume; unfold same_producer.
  - reflexivity.
  - intros w1 w2 w3 H1 H2. rewrite H2. exact H1.
  - reflexivity.
  - reflexivity.
Qed.

End Growth.



(** X9: the slot is empty whenever [produce] returns.  This needs no
    assumption on the world in which [produce] is called: either the check
    found the slot empty and only a line was printed, or the slot was moved
    from for the consumer, who does not touch the producer. *)
Theorem produce_returns_empty w w' :
  produce w = Some (tt, w') -> m_data (producer w') = None.
Proof.
  unfold produce. intros H.
  apply bind_inv in H as (? & w1 & _ & H).
  apply bind_inv in H as (fresh & w2 & _ & H).
  apply bind_inv in H as (? & w3 & _ & H).
  apply bind_inv in H as (? & w4 & _ & H).
  apply bind_inv in H as (? & w5 & _ & H).
  apply bind_inv in H as (d & w6 & _ & H).
  apply bind_inv in H as (? & w7 & _ & H).
  apply bind_inv in H as (d0 & w8 & Hd0 & H).
  apply bind_inv in H as (? & w9 & Hif & H).
  apply bind_inv in H as (d1 & w10 & Hd1 & H).
  injection Hd0 as <- <-. injection Hd1 as _ <-. injection H as <-.
  simpl. destruct (m_data (producer w7)) as [p|] eqn:Hs; simpl in Hif.
  - apply bind_inv in Hif as (arg & w8' & Hmv & Hc).
    rewrite (consume_same_producer arg w8' _ w9 Hc).
    unfold move_from in Hmv.
    apply bind_inv in Hmv as (u & ? & Hg & Hmv). injection Hg as _ <-.
    apply bind_inv in Hmv as (? & ? & Hst & Hmv).
    injection Hst as _ <-. injection Hmv as _ <-. reflexivity.
  - injection Hif as _ <-. exact Hs.
Qed.

Lemma produce_returns_empty_witness :
  m_data (producer (produced second_run_start)) = None.
Proof.
  apply (produce_returns_empty second_run_start (produced second_run_start)).
  vm_compute. reflexivity.
Defined.
